(** * vgo2discord: the capture goroutine of [Audio.Open] and the voice
      methods of [Discord] (src/main.go)

    The development embeds four pieces of main.go:
    - the scan of the capture buffer [in] that sets the local [speaking]
      (lines 144-150);
    - the methods [Discord.SendVoice] and [Discord.Speaking] (lines 79-104),
      over a small model of a Go channel of [[]byte];
    - the goroutine started by [Audio.Open] (lines 129-168), as a loop body
      that is run against the successive results of [stream.Read];
    - the set-up and tear-down: [InitProcess], [MainConfig.Load], the other
      methods of [Discord] and [Audio], and [main] with its deferred calls,
      as traces of the library calls they make. *)

From Stdlib Require Import String ZArith List Bool Lia.
Import ListNotations.
Local Open Scope Z_scope.

(** ** Samples and frames *)

(** An [int16] sample, carried as an integer of the range of the type. *)
Definition int16 (v : Z) : Prop := -32768 <= v <= 32767.

(** The largest magnitude a sample of the positive half can take. *)
Definition full_scale : Z := 32767.

Definition frameSize : nat := 960.
Definition channels : nat := 2.

(** [in := make([]int16, 960*2)]: the buffer every [stream.Read] fills. *)
Definition AudioFrame (frame : list Z) : Prop :=
  length frame = (frameSize * channels)%nat /\ Forall int16 frame.

(** [value > 1 || value < -1] (line 146). *)
Definition loud (value : Z) : bool := (value >? 1) || (value <? -1).

(** Lines 144-150: [speaking] starts as [true]; the first sample that is
    greater than 1 or less than -1 sets it to [false] and leaves the scan. *)
Fixpoint speaking (in_ : list Z) : bool :=
  match in_ with
  | [] => true
  | value :: rest => if loud value then false else speaking rest
  end.

(** The two labels of the frame.  [Sound] names the branch taken under
    [if speaking] (line 151: no encoding, [continue]); [Silence] names the
    branch that falls through to [opusEncoder.Encode] (line 161). *)
Inductive Label : Type := Silence | Sound.

Definition Classify (frame : list Z) : Label :=
  if speaking frame then Sound else Silence.

(** ** Go channels of encoded frames *)

Definition Opus : Type := list Byte.byte.

(** A channel of [[]byte]: its capacity, the values waiting in its buffer,
    the number of goroutines parked in a receive on it, and the values
    that were handed to a receiver. *)
Record Chan : Type := mkChan {
  cap : nat;
  buf : list Opus;
  recvq : nat;
  received : list Opus
}.

(** A send can proceed when a receiver is ready or the buffer has room. *)
Definition can_proceed (ch : Chan) : bool :=
  (0 <? recvq ch)%nat || (length (buf ch) <? cap ch)%nat.

(** [ch <- v].  [None]: the send cannot proceed and the goroutine parks. *)
Definition chan_send (ch : Chan) (v : Opus) : option Chan :=
  if (0 <? recvq ch)%nat then
    Some (mkChan (cap ch) (buf ch) (pred (recvq ch)) (received ch ++ [v]))
  else if (length (buf ch) <? cap ch)%nat then
    Some (mkChan (cap ch) (buf ch ++ [v]) (recvq ch) (received ch))
  else None.

(** [<-ch] by the consumer: takes the oldest buffered value, or parks. *)
Definition chan_recv (ch : Chan) : Chan :=
  match buf ch with
  | v :: rest => mkChan (cap ch) rest (recvq ch) (received ch ++ [v])
  | [] => mkChan (cap ch) [] (S (recvq ch)) (received ch)
  end.

(** ** The voice connection and the methods of [Discord] *)

(** The fields of [*discordgo.VoiceConnection] the methods read, and the
    log of the states passed to [voice.Speaking]. *)
Record VoiceConnection : Type := mkVoice {
  Ready : bool;
  OpusSend : option Chan;
  announced : list bool
}.

(** [type Discord struct]: [voice] is [nil] until [JoinVoiceChannel]. *)
Record Discord : Type := mkDiscord {
  voice : option VoiceConnection
}.

(** What a call does: it returns a value and leaves a state, or it is
    parked in the channel send of line 90. *)
Inductive Outcome : Type :=
| Returns (b : bool) (d : Discord)
| Blocks.

(** Lines 79-92. *)
Definition SendVoice (discord : Discord) (opus : Opus) : Outcome :=
  match voice discord with
  | None => Returns false discord
  | Some v =>
      if negb (Ready v) then Returns false discord
      else match OpusSend v with
           | None => Returns false discord
           | Some ch =>
               match chan_send ch opus with
               | Some ch' =>
                   Returns true
                     (mkDiscord (Some (mkVoice (Ready v) (Some ch') (announced v))))
               | None => Blocks
               end
           end
  end.

(** Lines 94-104. *)
Definition Speaking (discord : Discord) (speaking : bool) : Outcome :=
  match voice discord with
  | None => Returns false discord
  | Some v =>
      if negb (Ready v) then Returns false discord
      else Returns true
             (mkDiscord (Some (mkVoice (Ready v) (OpusSend v)
                                       (announced v ++ [speaking]))))
  end.

(** The three conditions under which [SendVoice] gives up. *)
Definition not_joined (d : Discord) : Prop := voice d = None.
Definition not_ready (d : Discord) : Prop :=
  exists v, voice d = Some v /\ Ready v = false.
Definition no_send_channel (d : Discord) : Prop :=
  exists v, voice d = Some v /\ OpusSend v = None.

Definition unavailable (d : Discord) : Prop :=
  not_joined d \/ not_ready d \/ no_send_channel d.

(** The consumer of [OpusSend] lives in another goroutine.  One round of
    the scheduler lets it receive once or do nothing. *)
Inductive ConsumerAct : Type := Recv | Idle.

Definition consumer_step (a : ConsumerAct) (d : Discord) : Discord :=
  match a, voice d with
  | Recv, Some v =>
      match OpusSend v with
      | Some ch => mkDiscord (Some (mkVoice (Ready v) (Some (chan_recv ch)) (announced v)))
      | None => d
      end
  | _, _ => d
  end.

(** The call as the caller lives it: while the send is parked the consumer
    takes its rounds, and the send is tried again after each. *)
Fixpoint SendVoice_wait (rounds : list ConsumerAct) (d : Discord) (opus : Opus)
  : Outcome :=
  match SendVoice d opus with
  | Returns b d' => Returns b d'
  | Blocks =>
      match rounds with
      | [] => Blocks
      | a :: rest => SendVoice_wait rest (consumer_step a d) opus
      end
  end.

(** ** The capture goroutine of [Audio.Open] *)

(** The errors that reach [errCh].  [portaudio.InputOverflowed] is the one
    value line 139 compares with; every other error value of the device or
    of the encoder is told apart from it by the comparison. *)
Inductive error : Type :=
| InputOverflowed
| OtherError (msg : string).

(** [err == portaudio.InputOverflowed]. *)
Definition is_overflow (err : error) : bool :=
  match err with
  | InputOverflowed => true
  | OtherError _ => false
  end.

(** What one call of [stream.Read] gives: [nil] with the buffer [in]
    filled, or an error. *)
Inductive ReadResult : Type :=
| ReadOk (in_ : list Z)
| ReadErr (err : error).

(** What the goroutine does that is seen from outside, in order.  An event
    records that the call was made; the loop moves on once the call has
    returned, and the value [SendVoice] returns is dropped (line 166). *)
Inductive Event : Type :=
| EvRead                          (* stream.Read() *)
| EvReport (err : error)          (* errCh <- err *)
| EvSpeaking (b : bool)           (* go discord.Speaking(b) *)
| EvEncode (in_ : list Z)         (* opusEncoder.Encode(in, 960, 960*2*2) *)
| EvSendVoice (opus : Opus).      (* discord.SendVoice(opus) *)

Section Capture.

(** The state of a [*gopus.Encoder] and its [Encode] method, which
    updates that state and returns the packet or an error. *)
Variable Encoder : Type.
Variable Encode : Encoder -> list Z -> Encoder * (Opus + error).

(** The locals that live across iterations. *)
Record Loop : Type := mkLoop {
  speaked : bool;
  opusEncoder : Encoder
}.

(** How an iteration ends: back to the head of the [for], or [return]. *)
Inductive Status : Type :=
| Streaming (st : Loop)
| Stopped.

(** Lines 158-166: the frame is not all quiet. *)
Definition encode_and_send (st : Loop) (in_ : list Z) : list Event * Status :=
  let speaked' := if negb (speaked st) then true else speaked st in
  match Encode (opusEncoder st) in_ with
  | (enc', inr err) => ([EvEncode in_; EvReport err], Stopped)
  | (enc', inl opus) =>
      ([EvEncode in_; EvSendVoice opus], Streaming (mkLoop speaked' enc'))
  end.

(** Lines 151-157: the frame is all quiet. *)
Definition skip_frame (st : Loop) : list Event * Status :=
  if speaked st
  then ([EvSpeaking false], Streaming (mkLoop false (opusEncoder st)))
  else ([], Streaming st).

(** One turn of the [for] of lines 136-167, given what [stream.Read]
    returns in it. *)
Definition iteration (st : Loop) (r : ReadResult) : list Event * Status :=
  match r with
  | ReadErr err =>
      ([EvRead; EvReport err],
       if is_overflow err then Streaming st else Stopped)
  | ReadOk in_ =>
      let (evs, next) :=
        if speaking in_ then skip_frame st else encode_and_send st in_ in
      (EvRead :: evs, next)
  end.

(** The result of a run against the first results of [stream.Read]:
    the events of each iteration, where the loop stands, and the results
    that were never asked for. *)
Record Run : Type := mkRun {
  iterations : list (list Event);
  status : Status;
  unread : list ReadResult
}.

Fixpoint run (st : Loop) (reads : list ReadResult) : Run :=
  match reads with
  | [] => mkRun [] (Streaming st) []
  | r :: rest =>
      match iteration st r with
      | (evs, Stopped) => mkRun [evs] Stopped rest
      | (evs, Streaming st') =>
          let tail := run st' rest in
          mkRun (evs :: iterations tail) (status tail) (unread tail)
      end
  end.

(** Lines 130-135 and the loop: [speaked := true], and the goroutine
    leaves at once when [gopus.NewEncoder] failed. *)
Definition goroutine (newEncoder : Encoder + error) (reads : list ReadResult)
  : Run :=
  match newEncoder with
  | inr err => mkRun [[EvReport err]] Stopped reads
  | inl enc => run (mkLoop true enc) reads
  end.

(** All the events of a run, in order. *)
Definition trace (r : Run) : list Event := concat (iterations r).

(** The successive packets of an encoder that never fails on [frames]. *)
Fixpoint encode_all (enc : Encoder) (frames : list (list Z))
  : option (list Opus) :=
  match frames with
  | [] => Some []
  | f :: rest =>
      match Encode enc f with
      | (enc', inl opus) =>
          match encode_all enc' rest with
          | Some l => Some (opus :: l)
          | None => None
          end
      | (_, inr _) => None
      end
  end.

End Capture.

Arguments mkLoop {Encoder}.
Arguments speaked {Encoder}.
Arguments opusEncoder {Encoder}.
Arguments Streaming {Encoder}.
Arguments Stopped {Encoder}.
Arguments mkRun {Encoder}.
Arguments iterations {Encoder}.
Arguments status {Encoder}.
Arguments unread {Encoder}.
Arguments trace {Encoder}.
Arguments skip_frame {Encoder}.

(** Counting the events of one kind. *)
Definition is_speaking_event (e : Event) : bool :=
  match e with EvSpeaking _ => true | _ => false end.
Definition is_encode_event (e : Event) : bool :=
  match e with EvEncode _ => true | _ => false end.
Definition is_send_event (e : Event) : bool :=
  match e with EvSendVoice _ => true | _ => false end.
Definition is_read_event (e : Event) : bool :=
  match e with EvRead => true | _ => false end.
Definition is_report_event (e : Event) : bool :=
  match e with EvReport _ => true | _ => false end.

Definition count (p : Event -> bool) (evs : list Event) : nat :=
  length (filter p evs).

(** An encoder to run the loop on: it counts its calls, refuses a frame
    that is not 1920 samples long, refuses every call from [failing_call]
    on, and otherwise returns a one-byte packet. *)
Definition toy_Encode (failing_call : nat) (calls : nat) (in_ : list Z)
  : nat * (Opus + error) :=
  (S calls,
   if negb (length in_ =? 1920)%nat then inr (OtherError "bad frame size")
   else if (failing_call <=? S calls)%nat then inr (OtherError "encode failed")
   else inl [Byte.x01]).

Definition quiet_frame : list Z := repeat 0 1920.
Definition loud_frame : list Z := repeat 1000 1920.

(** One sample of value 1000, then 1919 samples of value 0. *)
Definition mixed_frame : list Z := 1000 :: repeat 0 1919.

(** ** Session states and relations used in the statements *)

(** [ch'] is [ch] after it took [opus]: at the end of its buffer, or
    straight into the hands of a parked receiver. *)
Definition handed_to (ch ch' : Chan) (opus : Opus) : Prop :=
  cap ch' = cap ch /\
  ((buf ch' = buf ch ++ [opus] /\ received ch' = received ch /\
    recvq ch' = recvq ch)
   \/
   (received ch' = received ch ++ [opus] /\ buf ch' = buf ch /\
    recvq ch = S (recvq ch'))).

(** [d'] is [d] with [opus] enqueued on its send channel and nothing else
    changed. *)
Definition enqueued (d d' : Discord) (opus : Opus) : Prop :=
  exists v ch ch',
    voice d = Some v /\ OpusSend v = Some ch /\
    voice d' = Some (mkVoice (Ready v) (Some ch') (announced v)) /\
    handed_to ch ch' opus.

(** [d'] is [d] with [b] announced and nothing else changed. *)
Definition announcement_made (d d' : Discord) (b : bool) : Prop :=
  exists v,
    voice d = Some v /\
    voice d' = Some (mkVoice (Ready v) (OpusSend v) (announced v ++ [b])).

(** The buffer never holds more than the capacity. *)
Definition chan_wf (ch : Chan) : Prop := (length (buf ch) <= cap ch)%nat.

(** A consumer that takes nothing for [n] rounds. *)
Definition stalled (n : nat) : list ConsumerAct := repeat Idle n.

(** A channel of capacity 2 whose buffer is full, with no receiver. *)
Definition full_chan : Chan := mkChan 2 [[Byte.x01]; [Byte.x02]] 0 [].

(** Joined and ready, send channel full. *)
Definition full_session : Discord :=
  mkDiscord (Some (mkVoice true (Some full_chan) [])).

(** Joined and ready, [OpusSend] still [nil]. *)
Definition no_channel_session : Discord :=
  mkDiscord (Some (mkVoice true None [])).

(** Joined and ready, send channel of capacity 2 and empty. *)
Definition open_session : Discord :=
  mkDiscord (Some (mkVoice true (Some (mkChan 2 [] 0 [])) [])).

(** [Discord] before [JoinVoiceChannel]. *)
Definition fresh_session : Discord := mkDiscord None.

(** ** Reading a run *)

(** The frames that were passed to [Encode], the packets that were passed
    to [SendVoice] and the errors that were sent to [errCh], in order. *)
Fixpoint encoded_frames (evs : list Event) : list (list Z) :=
  match evs with
  | [] => []
  | EvEncode in_ :: rest => in_ :: encoded_frames rest
  | _ :: rest => encoded_frames rest
  end.

Fixpoint sent_packets (evs : list Event) : list Opus :=
  match evs with
  | [] => []
  | EvSendVoice opus :: rest => opus :: sent_packets rest
  | _ :: rest => sent_packets rest
  end.

(** The buffers of the calls of [stream.Read] that returned [nil]. *)
Fixpoint frames_of (reads : list ReadResult) : list (list Z) :=
  match reads with
  | [] => []
  | ReadOk in_ :: rest => in_ :: frames_of rest
  | ReadErr _ :: rest => frames_of rest
  end.

(** A call of [stream.Read] that returned [InputOverflowed], and the
    iteration such a call gives. *)
Definition is_overflow_read (r : ReadResult) : bool :=
  match r with
  | ReadErr err => is_overflow err
  | ReadOk _ => false
  end.

Definition is_overflow_iteration (evs : list Event) : bool :=
  match evs with
  | [EvRead; EvReport err] => is_overflow err
  | _ => false
  end.

(** No two [Speaking] events without an [Encode] between them; [armed]
    tells whether an announcement may come next. *)
Fixpoint alternates (armed : bool) (evs : list Event) : bool :=
  match evs with
  | [] => true
  | EvSpeaking _ :: rest => armed && alternates false rest
  | EvEncode _ :: rest => alternates true rest
  | _ :: rest => alternates armed rest
  end.

(** The five shapes an iteration can have. *)
Inductive IterationShape : list Event -> Prop :=
| ShapeQuiet : IterationShape [EvRead]
| ShapeAnnounce : IterationShape [EvRead; EvSpeaking false]
| ShapeSent in_ opus : IterationShape [EvRead; EvEncode in_; EvSendVoice opus]
| ShapeEncodeError in_ err : IterationShape [EvRead; EvEncode in_; EvReport err]
| ShapeReadError err : IterationShape [EvRead; EvReport err].

(** The outcome of an iteration, case by case. *)
Inductive IterationCase {Encoder : Type}
          (Encode : Encoder -> list Z -> Encoder * (Opus + error))
          (st : Loop Encoder) (r : ReadResult)
  : list Event -> Status Encoder -> Prop :=
| CaseOverflow :
    r = ReadErr InputOverflowed ->
    IterationCase Encode st r [EvRead; EvReport InputOverflowed] (Streaming st)
| CaseReadError msg :
    r = ReadErr (OtherError msg) ->
    IterationCase Encode st r [EvRead; EvReport (OtherError msg)] Stopped
| CaseQuiet in_ :
    r = ReadOk in_ -> speaking in_ = true -> speaked st = false ->
    IterationCase Encode st r [EvRead] (Streaming st)
| CaseAnnounce in_ :
    r = ReadOk in_ -> speaking in_ = true -> speaked st = true ->
    IterationCase Encode st r [EvRead; EvSpeaking false]
                  (Streaming (mkLoop false (opusEncoder st)))
| CaseSent in_ enc' opus :
    r = ReadOk in_ -> speaking in_ = false ->
    Encode (opusEncoder st) in_ = (enc', inl opus) ->
    IterationCase Encode st r [EvRead; EvEncode in_; EvSendVoice opus]
                  (Streaming (mkLoop true enc'))
| CaseEncodeError in_ enc' err :
    r = ReadOk in_ -> speaking in_ = false ->
    Encode (opusEncoder st) in_ = (enc', inr err) ->
    IterationCase Encode st r [EvRead; EvEncode in_; EvReport err] Stopped.

(** The state of an encoder after it was fed [frames], one call after the
    other. *)
Fixpoint encoder_after {Encoder : Type}
         (Encode : Encoder -> list Z -> Encoder * (Opus + error))
         (enc : Encoder) (frames : list (list Z)) : Encoder :=
  match frames with
  | [] => enc
  | f :: rest => encoder_after Encode (fst (Encode enc f)) rest
  end.


(** ** The rest of main.go: set-up and tear-down *)



































(** * Properties *)

(** ** The scan of the buffer *)

Lemma loud_iff (value : Z) : loud value = true <-> 1 < Z.abs value.
Proof. unfold loud. rewrite orb_true_iff, Z.gtb_lt, Z.ltb_lt. lia. Qed.

Lemma loud_false_iff (value : Z) : loud value = false <-> -1 <= value <= 1.
Proof.
  unfold loud. rewrite orb_false_iff, Z.gtb_ltb, !Z.ltb_ge. lia.
Qed.

Lemma speaking_true_iff (in_ : list Z) :
  speaking in_ = true <-> Forall (fun value => -1 <= value <= 1) in_.
Proof.
  induction in_ as [|value rest IH]; simpl.
  - split; auto.
  - destruct (loud value) eqn:E.
    + split; [discriminate|]. intros H. inversion H as [|? ? Hv _]; subst.
      apply loud_false_iff in Hv. congruence.
    + rewrite IH. apply loud_false_iff in E. split.
      * intros H. constructor; assumption.
      * intros H. inversion H; assumption.
Qed.

Lemma speaking_false_iff (in_ : list Z) :
  speaking in_ = false <-> Exists (fun value => 1 < Z.abs value) in_.
Proof.
  induction in_ as [|value rest IH]; simpl.
  - split; [discriminate|]. intros H. inversion H.
  - destruct (loud value) eqn:E.
    + split; auto. intros _. left. apply loud_iff. exact E.
    + rewrite IH. split.
      * intros H. right. exact H.
      * intros H. inversion H as [? ? Hv|]; subst; auto.
        apply loud_iff in Hv. congruence.
Qed.

Lemma speaking_repeat_quiet (n : nat) : speaking (repeat 0 n) = true.
Proof. induction n; simpl; auto. Qed.

Lemma AudioFrame_mixed_frame : AudioFrame mixed_frame.
Proof.
  split; [reflexivity|]. unfold mixed_frame. constructor.
  - unfold int16. lia.
  - apply Forall_forall. intros x Hx. apply repeat_spec in Hx. subst.
    unfold int16. lia.
Qed.

(** C1, as the claim states it, fails: a buffer with one sample of value
    1000 and 1919 samples of value 0 is labelled [Silence] (it goes on to
    the encoder); not every sample has a magnitude above the full scale of
    [int16] (none has), whether that bound is taken as 32767 or as 32768. *)
Lemma Classify_full_scale_counterexample :
  ~ (forall frame, AudioFrame frame ->
       (Classify frame = Silence <->
        Forall (fun value => full_scale < Z.abs value) frame))
  /\
  ~ (forall frame, AudioFrame frame ->
       (Classify frame = Silence <->
        Forall (fun value => full_scale + 1 < Z.abs value) frame)).
Proof.
  assert (Hc : Classify mixed_frame = Silence) by reflexivity.
  split; intros H; apply (H mixed_frame AudioFrame_mixed_frame) in Hc;
    inversion Hc as [|? ? Hv _]; unfold full_scale in Hv; simpl in Hv; lia.
Qed.

(** C1, amended: [Classify] returns [Silence] exactly when at least one
    sample of the frame has a magnitude greater than 1 (it is greater than
    1 or less than -1), and [Sound] exactly when every sample lies between
    -1 and 1; the threshold is the constant 1, not the full scale. *)
Theorem Classify_threshold (frame : list Z) :
  (Classify frame = Silence <-> Exists (fun value => 1 < Z.abs value) frame)
  /\ (Classify frame = Sound <-> Forall (fun value => -1 <= value <= 1) frame).
Proof.
  unfold Classify. rewrite <- speaking_false_iff, <- speaking_true_iff.
  destruct (speaking frame); split; split; intros; congruence.
Qed.

(** ** [SendVoice] and [Speaking] *)

Lemma chan_send_proceeds (ch : Chan) (opus : Opus) :
  can_proceed ch = true ->
  exists ch', chan_send ch opus = Some ch' /\ handed_to ch ch' opus.
Proof.
  unfold can_proceed, chan_send, handed_to. intros H.
  destruct (0 <? recvq ch)%nat eqn:Hq.
  - eexists. split; [reflexivity|]. simpl. split; [reflexivity|]. right.
    apply Nat.ltb_lt in Hq. repeat split. lia.
  - simpl in H. rewrite H. eexists. split; [reflexivity|]. simpl.
    split; [reflexivity|]. left. repeat split.
Qed.

Lemma chan_send_parks (ch : Chan) (opus : Opus) :
  chan_send ch opus = None <-> can_proceed ch = false.
Proof.
  unfold can_proceed, chan_send.
  destruct (0 <? recvq ch)%nat; simpl; [split; discriminate|].
  destruct (length (buf ch) <? cap ch)%nat; split; congruence.
Qed.

Lemma available_inv (d : Discord) :
  ~ unavailable d ->
  exists v ch, voice d = Some v /\ Ready v = true /\ OpusSend v = Some ch.
Proof.
  unfold unavailable, not_joined, not_ready, no_send_channel. intros H.
  destruct (voice d) as [v|] eqn:Hv; [|exfalso; auto].
  destruct (Ready v) eqn:Hr; [|exfalso; apply H; right; left; eauto].
  destruct (OpusSend v) as [ch|] eqn:Hc; [|exfalso; apply H; right; right; eauto].
  eauto.
Qed.

Lemma unavailable_SendVoice (d : Discord) (opus : Opus) :
  unavailable d -> SendVoice d opus = Returns false d.
Proof.
  unfold unavailable, not_joined, not_ready, no_send_channel, SendVoice.
  intros [H|[(v & Hv & Hr)|(v & Hv & Hc)]].
  - rewrite H. reflexivity.
  - rewrite Hv, Hr. reflexivity.
  - rewrite Hv, Hc. destruct (Ready v); reflexivity.
Qed.

Lemma full_session_available : ~ unavailable full_session.
Proof.
  unfold unavailable, not_joined, not_ready, no_send_channel, full_session.
  simpl. intros [H|[(v & Hv & Hr)|(v & Hv & Hc)]];
    [discriminate| |]; injection Hv as <-; discriminate.
Qed.

Lemma SendVoice_blocks_iff (d : Discord) (opus : Opus) :
  SendVoice d opus = Blocks <->
  exists v ch, voice d = Some v /\ Ready v = true /\ OpusSend v = Some ch /\
               can_proceed ch = false.
Proof.
  unfold SendVoice. split.
  - destruct (voice d) as [v|]; [|discriminate].
    destruct (Ready v) eqn:Hr; simpl; [|discriminate].
    destruct (OpusSend v) as [ch|] eqn:Hc; [|discriminate].
    destruct (chan_send ch opus) eqn:Hs; [discriminate|]. intros _.
    exists v, ch. apply chan_send_parks in Hs. repeat split; auto.
  - intros (v & ch & -> & -> & -> & Hc). simpl.
    apply (chan_send_parks ch opus) in Hc. rewrite Hc. reflexivity.
Qed.

Lemma SendVoice_stalled (d : Discord) (opus : Opus) (n : nat) :
  SendVoice d opus = Blocks -> SendVoice_wait (stalled n) d opus = Blocks.
Proof.
  intros H. induction n as [|n IH]; simpl; rewrite H; [reflexivity|].
  exact IH.
Qed.

(** C6, as the claim states it, fails: on a session that is joined and
    ready and whose send channel is not nil but is full, with no receiver
    waiting, the call is parked in the send of line 90; it neither
    enqueues the frame nor returns [true]. *)
Lemma SendVoice_full_channel_counterexample :
  ~ (forall d opus,
       (unavailable d -> SendVoice d opus = Returns false d) /\
       (~ unavailable d ->
        exists d', SendVoice d opus = Returns true d' /\ enqueued d d' opus)).
Proof.
  intros H. destruct (H full_session [Byte.x03]) as [_ H2].
  destruct (H2 full_session_available) as (d' & Hd & _). discriminate Hd.
Qed.

(** C6, amended: [SendVoice] returns [false] and changes nothing whenever
    the session is not joined, not ready, or has a nil send channel; in
    every other case it sends the frame on the channel: when the channel
    can take it (room in the buffer, or a receiver waiting) the frame is
    enqueued and the call returns [true]; when it cannot, the call is
    parked in the send. *)
Theorem SendVoice_cases (d : Discord) (opus : Opus) :
  (unavailable d -> SendVoice d opus = Returns false d) /\
  (~ unavailable d ->
   exists v ch,
     voice d = Some v /\ Ready v = true /\ OpusSend v = Some ch /\
     (can_proceed ch = true ->
      exists d', SendVoice d opus = Returns true d' /\ enqueued d d' opus) /\
     (can_proceed ch = false -> SendVoice d opus = Blocks)).
Proof.
  split; [apply unavailable_SendVoice|].
  intros H. destruct (available_inv d H) as (v & ch & Hv & Hr & Hc).
  exists v, ch. repeat split; auto.
  - intros Hp. destruct (chan_send_proceeds ch opus Hp) as (ch' & Hs & Hh).
    unfold SendVoice. rewrite Hv, Hr, Hc, Hs. simpl.
    eexists. split; [reflexivity|].
    exists v, ch, ch'. rewrite Hr. simpl. auto.
  - intros Hp. apply SendVoice_blocks_iff. exists v, ch. auto.
Qed.

Lemma open_session_available : ~ unavailable open_session.
Proof.
  unfold unavailable, not_joined, not_ready, no_send_channel, open_session.
  simpl. intros [H|[(v & Hv & Hr)|(v & Hv & Hc)]];
    [discriminate| |]; injection Hv as <-; discriminate.
Qed.

Lemma SendVoice_cases_witness :
  SendVoice fresh_session [Byte.x03] = Returns false fresh_session /\
  exists d', SendVoice open_session [Byte.x03] = Returns true d' /\
             enqueued open_session d' [Byte.x03].
Proof.
  split.
  - apply (SendVoice_cases fresh_session [Byte.x03]). left. reflexivity.
  - destruct (SendVoice_cases open_session [Byte.x03]) as [_ H].
    destruct (H open_session_available) as (v & ch & Hv & _ & Hc & Hyes & _).
    simpl in Hv. injection Hv as <-. simpl in Hc. injection Hc as <-.
    apply Hyes. reflexivity.
Defined.

(** C7, as the claim states it, fails: on a session that is joined and
    ready while [OpusSend] is nil, [Speaking] makes the announcement and
    returns [true], and [SendVoice] returns [false]. *)
Lemma Speaking_nil_channel_counterexample :
  ~ (forall d b opus,
       (exists d', Speaking d b = Returns true d') <->
       (exists d', SendVoice d opus = Returns true d')).
Proof.
  intros H.
  destruct (H no_channel_session false [Byte.x03]) as [H1 _].
  destruct H1 as (d' & Hd).
  - eexists. reflexivity.
  - discriminate Hd.
Qed.

(** C7, amended: [Speaking] returns [false], with nothing announced,
    exactly when the session is not joined or not ready; the send channel
    is not looked at.  It returns [true] exactly when it made the
    announcement, and it does so in every state in which [SendVoice]
    returns [true]. *)
Theorem Speaking_cases (d : Discord) (b : bool) :
  ((not_joined d \/ not_ready d) <-> Speaking d b = Returns false d) /\
  ((exists d', Speaking d b = Returns true d') <->
   (exists d', Speaking d b = Returns true d' /\ announcement_made d d' b)) /\
  ((exists d', Speaking d b = Returns true d') <->
   (exists v, voice d = Some v /\ Ready v = true)) /\
  (forall opus d', SendVoice d opus = Returns true d' ->
                   exists d'', Speaking d b = Returns true d'').
Proof.
  unfold not_joined, not_ready, announcement_made, Speaking, SendVoice.
  destruct (voice d) as [v|] eqn:Hv; [destruct (Ready v) eqn:Hr|]; simpl;
    repeat split; intros;
    repeat match goal with
           | H : exists _, _ |- _ => destruct H
           | H : _ /\ _ |- _ => destruct H
           | H : _ \/ _ |- _ => destruct H
           | H : Some _ = Some _ |- _ => injection H as <-
           end;
    try discriminate; try congruence; eauto.
  - eexists. split; [reflexivity|]. exists v. simpl. rewrite Hr. auto.
Qed.

Lemma Speaking_cases_witness :
  exists d'', Speaking open_session false = Returns true d''.
Proof.
  destruct (Speaking_cases open_session false) as (_ & _ & _ & H).
  apply (H [Byte.x03]
           (mkDiscord (Some (mkVoice true (Some (mkChan 2 [[Byte.x03]] 0 [])) [])))).
  reflexivity.
Defined.

Lemma can_proceed_after_recv (ch : Chan) :
  chan_wf ch -> can_proceed ch = false -> can_proceed (chan_recv ch) = true.
Proof.
  unfold chan_wf, can_proceed, chan_recv. intros Hwf H.
  apply orb_false_iff in H. destruct H as [Hq Hb].
  apply Nat.ltb_ge in Hb.
  destruct (buf ch) as [|v rest]; simpl in *.
  - reflexivity.
  - rewrite Hq. simpl. apply Nat.ltb_lt. lia.
Qed.

Lemma SendVoice_returns_at_once (d : Discord) (opus : Opus)
      (rounds : list ConsumerAct) :
  SendVoice d opus <> Blocks -> SendVoice_wait rounds d opus = SendVoice d opus.
Proof.
  intros H. destruct rounds; simpl; destruct (SendVoice d opus); congruence.
Qed.

Lemma SendVoice_wait_parked (d : Discord) (opus : Opus) (a : ConsumerAct)
      (rest : list ConsumerAct) :
  SendVoice d opus = Blocks ->
  SendVoice_wait (a :: rest) d opus
  = SendVoice_wait rest (consumer_step a d) opus.
Proof. simpl. intros ->. reflexivity. Qed.

Lemma SendVoice_after_recv (d : Discord) (opus : Opus)
      (rounds : list ConsumerAct) :
  SendVoice d opus = Blocks ->
  (forall v ch, voice d = Some v -> OpusSend v = Some ch -> chan_wf ch) ->
  exists d', SendVoice_wait (Recv :: rounds) d opus = Returns true d' /\
             enqueued (consumer_step Recv d) d' opus.
Proof.
  intros Hb Hwf. rewrite (SendVoice_wait_parked _ _ _ _ Hb).
  apply SendVoice_blocks_iff in Hb.
  destruct Hb as (v & ch & Hv & Hr & Hc & Hp).
  specialize (Hwf v ch Hv Hc).
  pose proof (can_proceed_after_recv ch Hwf Hp) as Hp'.
  destruct (chan_send_proceeds (chan_recv ch) opus Hp') as (ch' & Hs & Hh).
  assert (Hstep : consumer_step Recv d =
                  mkDiscord (Some (mkVoice (Ready v) (Some (chan_recv ch))
                                            (announced v)))).
  { unfold consumer_step. rewrite Hv, Hc. reflexivity. }
  rewrite Hstep.
  assert (Hsend : SendVoice
                    (mkDiscord (Some (mkVoice (Ready v) (Some (chan_recv ch))
                                               (announced v)))) opus
                  = Returns true
                      (mkDiscord (Some (mkVoice (Ready v) (Some ch')
                                                 (announced v))))).
  { unfold SendVoice. simpl. rewrite Hr, Hs. reflexivity. }
  rewrite (SendVoice_returns_at_once _ _ rounds) by (rewrite Hsend; discriminate).
  rewrite Hsend. eexists. split; [reflexivity|].
  eexists _, (chan_recv ch), ch'. simpl.
  split; [reflexivity|]. split; [reflexivity|]. split; [reflexivity|exact Hh].
Qed.

(** C8, as the claim states it, fails: on a joined and ready session whose
    send channel is full, a consumer that takes nothing leaves the call
    parked in the send of line 90 after any number of rounds. *)
Lemma SendVoice_stalled_counterexample :
  ~ (forall d opus,
       exists n b d', SendVoice_wait (stalled n) d opus = Returns b d').
Proof.
  intros H. destruct (H full_session [Byte.x03]) as (n & b & d' & Hd).
  rewrite SendVoice_stalled in Hd by reflexivity. discriminate Hd.
Qed.

(** C8, amended: [SendVoice] returns without waiting whenever its send can
    proceed or is not reached (session not joined, not ready, nil channel,
    or a channel with room or with a waiting receiver).  It is parked
    exactly on a joined and ready session whose channel cannot take the
    frame; there it stays parked for as long as the consumer takes
    nothing, and returns [true], the frame enqueued, once the consumer
    has received: the hand-over is a synchronous channel send. *)
Theorem SendVoice_blocking (d : Discord) (opus : Opus) :
  (SendVoice d opus = Blocks <->
   exists v ch, voice d = Some v /\ Ready v = true /\ OpusSend v = Some ch /\
                can_proceed ch = false) /\
  (SendVoice d opus <> Blocks ->
   forall rounds, SendVoice_wait rounds d opus = SendVoice d opus) /\
  (SendVoice d opus = Blocks ->
   forall n, SendVoice_wait (stalled n) d opus = Blocks) /\
  (SendVoice d opus = Blocks ->
   (forall v ch, voice d = Some v -> OpusSend v = Some ch -> chan_wf ch) ->
   forall rounds,
   exists d', SendVoice_wait (Recv :: rounds) d opus = Returns true d' /\
              enqueued (consumer_step Recv d) d' opus).
Proof.
  split; [apply SendVoice_blocks_iff|]. split; [|split].
  - intros H rounds. apply SendVoice_returns_at_once. exact H.
  - intros H n. apply SendVoice_stalled. exact H.
  - intros H Hwf rounds. apply SendVoice_after_recv; assumption.
Qed.

Lemma full_session_wf (v : VoiceConnection) (ch : Chan) :
  voice full_session = Some v -> OpusSend v = Some ch -> chan_wf ch.
Proof.
  simpl. intros Hv Hc. injection Hv as <-. simpl in Hc. injection Hc as <-.
  unfold chan_wf. simpl. lia.
Qed.

Lemma SendVoice_blocking_witness :
  SendVoice_wait (stalled 50) full_session [Byte.x03] = Blocks /\
  (exists d', SendVoice_wait [Recv; Idle] full_session [Byte.x03]
              = Returns true d' /\
              enqueued (consumer_step Recv full_session) d' [Byte.x03]) /\
  SendVoice_wait [Idle] fresh_session [Byte.x03]
  = SendVoice fresh_session [Byte.x03].
Proof.
  destruct (SendVoice_blocking full_session [Byte.x03]) as (_ & _ & H3 & H4).
  destruct (SendVoice_blocking fresh_session [Byte.x03]) as (_ & H2 & _).
  split; [|split].
  - apply H3. reflexivity.
  - apply H4; [reflexivity|exact full_session_wf].
  - apply H2. discriminate.
Defined.

(** ** The loop body *)

Section CaptureProperties.

Variable Encoder : Type.
Variable Encode : Encoder -> list Z -> Encoder * (Opus + error).

Local Abbreviation iteration := (iteration Encoder Encode).
Local Abbreviation run := (run Encoder Encode).
Local Abbreviation goroutine := (goroutine Encoder Encode).
Local Abbreviation encode_and_send := (encode_and_send Encoder Encode).
Local Abbreviation encode_all := (encode_all Encoder Encode).

Lemma iteration_quiet (st : Loop Encoder) (in_ : list Z) :
  speaking in_ = true ->
  iteration st (ReadOk in_)
  = (EvRead :: fst (skip_frame st), snd (skip_frame st)).
Proof.
  intros H. unfold iteration. rewrite H. destruct (skip_frame st). reflexivity.
Qed.

Lemma iteration_loud (st : Loop Encoder) (in_ : list Z) :
  speaking in_ = false ->
  iteration st (ReadOk in_)
  = (EvRead :: fst (encode_and_send st in_), snd (encode_and_send st in_)).
Proof.
  intros H. unfold iteration. rewrite H.
  destruct (encode_and_send st in_). reflexivity.
Qed.

Lemma encode_and_send_ok (st : Loop Encoder) (in_ : list Z)
      (enc' : Encoder) (opus : Opus) :
  Encode (opusEncoder st) in_ = (enc', inl opus) ->
  encode_and_send st in_
  = ([EvEncode in_; EvSendVoice opus], Streaming (mkLoop true enc')).
Proof.
  intros H. unfold encode_and_send. rewrite H. destruct (speaked st); reflexivity.
Qed.

Lemma encode_and_send_err (st : Loop Encoder) (in_ : list Z)
      (enc' : Encoder) (err : error) :
  Encode (opusEncoder st) in_ = (enc', inr err) ->
  encode_and_send st in_ = ([EvEncode in_; EvReport err], Stopped).
Proof. intros H. unfold encode_and_send. rewrite H. reflexivity. Qed.

Lemma encode_and_send_events (st : Loop Encoder) (in_ : list Z) :
  exists e, fst (encode_and_send st in_) = [EvEncode in_; e] /\
            is_speaking_event e = false /\ is_encode_event e = false.
Proof.
  unfold encode_and_send.
  destruct (Encode (opusEncoder st) in_) as [enc' [opus|err]]; simpl; eauto.
Qed.

Lemma run_cons_streaming (st st' : Loop Encoder) (r : ReadResult)
      (evs : list Event) (rest : list ReadResult) :
  iteration st r = (evs, Streaming st') ->
  run st (r :: rest)
  = mkRun (evs :: iterations (run st' rest)) (status (run st' rest))
          (unread (run st' rest)).
Proof. intros H. simpl. rewrite H. reflexivity. Qed.

Lemma run_cons_stopped (st : Loop Encoder) (r : ReadResult)
      (evs : list Event) (rest : list ReadResult) :
  iteration st r = (evs, Stopped) ->
  run st (r :: rest) = mkRun [evs] Stopped rest.
Proof. intros H. simpl. rewrite H. reflexivity. Qed.

(** A run that is still streaming at the end of [pre] goes on with what
    follows. *)
Lemma run_app (pre rest : list ReadResult) :
  forall (st st' : Loop Encoder) (its : list (list Event)),
    run st pre = mkRun its (Streaming st') [] ->
    run st (pre ++ rest)
    = mkRun (its ++ iterations (run st' rest)) (status (run st' rest))
            (unread (run st' rest)).
Proof.
  induction pre as [|r pre IH]; intros st st' its H.
  - simpl in H. injection H as <- <-. simpl. destruct (run st rest); reflexivity.
  - rewrite <- app_comm_cons.
    destruct (iteration st r) as [evs [st1|]] eqn:Hit.
    + rewrite (run_cons_streaming _ _ _ _ _ Hit) in H.
      rewrite (run_cons_streaming _ _ _ _ _ Hit).
      destruct (run st1 pre) as [its1 s1 u1] eqn:Hrun. simpl in H.
      injection H as <- -> ->.
      rewrite (IH st1 st' its1 Hrun). reflexivity.
    + rewrite (run_cons_stopped _ _ _ _ Hit) in H. discriminate H.
Qed.

(** Frames that are all quiet, met with [speaked] already cleared. *)
Lemma run_quiet (frames : list (list Z)) (enc : Encoder) :
  Forall (fun f => speaking f = true) frames ->
  run (mkLoop false enc) (map ReadOk frames)
  = mkRun (repeat [EvRead] (length frames)) (Streaming (mkLoop false enc)) [].
Proof.
  induction frames as [|f frames IH]; intros H; [reflexivity|].
  inversion H as [|? ? Hf Hrest]; subst. simpl map.
  rewrite (run_cons_streaming _ (mkLoop false enc) _ [EvRead]).
  - rewrite (IH Hrest). reflexivity.
  - rewrite (iteration_quiet _ _ Hf). reflexivity.
Qed.


Lemma Classify_Sound (f : list Z) : Classify f = Sound <-> speaking f = true.
Proof. unfold Classify. destruct (speaking f); split; congruence. Qed.


Lemma Forall_Sound (frames : list (list Z)) :
  Forall (fun f => Classify f = Sound) frames ->
  Forall (fun f => speaking f = true) frames.
Proof. apply Forall_impl. intros f. apply Classify_Sound. Qed.


(** A first frame that is all quiet, then more of them. *)
Lemma goroutine_sound (enc : Encoder) (f : list Z) (frames : list (list Z)) :
  Forall (fun f => Classify f = Sound) (f :: frames) ->
  goroutine (inl enc) (map ReadOk (f :: frames))
  = mkRun ([EvRead; EvSpeaking false] :: repeat [EvRead] (length frames))
          (Streaming (mkLoop false enc)) [].
Proof.
  intros H. apply Forall_Sound in H. inversion H as [|? ? Hf Hrest]; subst.
  unfold goroutine. simpl map.
  rewrite (run_cons_streaming _ (mkLoop false enc) _ [EvRead; EvSpeaking false]).
  - rewrite (run_quiet _ _ Hrest). reflexivity.
  - rewrite (iteration_quiet _ _ Hf). reflexivity.
Qed.

Lemma count_concat_repeat_read (p : Event -> bool) (n : nat) :
  p EvRead = false -> count p (concat (repeat [EvRead] n)) = 0%nat.
Proof.
  intros H. induction n as [|n IH]; [reflexivity|].
  unfold count in *. simpl. rewrite H. exact IH.
Qed.

(** C3: on ten frames that are all classified [Sound], the goroutine
    issues [Speaking(false)] once, in the iteration of the first frame,
    and calls neither [Encode] nor [SendVoice] in any of the ten. *)
Theorem ten_sound_frames (enc : Encoder) (frames : list (list Z)) :
  length frames = 10%nat ->
  Forall (fun f => Classify f = Sound) frames ->
  let r := goroutine (inl enc) (map ReadOk frames) in
  iterations r = [EvRead; EvSpeaking false] :: repeat [EvRead] 9
  /\ count is_speaking_event (trace r) = 1%nat
  /\ count is_encode_event (trace r) = 0%nat
  /\ count is_send_event (trace r) = 0%nat
  /\ count is_read_event (trace r) = 10%nat
  /\ status r = Streaming (mkLoop false enc).
Proof.
  intros Hlen H. destruct frames as [|f frames]; [discriminate|].
  simpl in Hlen. injection Hlen as Hlen.
  cbv zeta. rewrite (goroutine_sound enc f frames H), Hlen.
  repeat split.
Qed.




Lemma iteration_reads_first (st : Loop Encoder) (r : ReadResult) :
  exists evs, fst (iteration st r) = EvRead :: evs.
Proof.
  destruct r as [in_|err]; simpl; [|eauto].
  destruct (if speaking in_ then skip_frame st else encode_and_send st in_).
  simpl. eauto.
Qed.

Lemma run_reads_first (st : Loop Encoder) (r : ReadResult)
      (rest : list ReadResult) :
  exists evs its, iterations (run st (r :: rest)) = (EvRead :: evs) :: its.
Proof.
  destruct (iteration_reads_first st r) as (evs & Hevs). simpl.
  destruct (iteration st r) as [evs' [st'|]]; simpl in *; subst; eauto.
Qed.

(** C4: when [stream.Read] returns [InputOverflowed], the iteration sends
    the error to [errCh] and does nothing else (no scan of the buffer, no
    [Encode], no [SendVoice], locals unchanged), and the loop goes on: the
    run continues with the next result, whose iteration begins with a call
    of [stream.Read].  When it returns any other error, the iteration
    sends it to [errCh] and the goroutine returns: nothing more is read. *)
Theorem read_error (st : Loop Encoder) (err : error) (rest : list ReadResult) :
  (err = InputOverflowed ->
   iteration st (ReadErr err) = ([EvRead; EvReport err], Streaming st) /\
   run st (ReadErr err :: rest)
   = mkRun ([EvRead; EvReport err] :: iterations (run st rest))
           (status (run st rest)) (unread (run st rest)) /\
   (forall r rest', rest = r :: rest' ->
      exists evs its,
        iterations (run st (ReadErr err :: rest))
        = [EvRead; EvReport err] :: (EvRead :: evs) :: its))
  /\
  (err <> InputOverflowed ->
   iteration st (ReadErr err) = ([EvRead; EvReport err], Stopped) /\
   run st (ReadErr err :: rest) = mkRun [[EvRead; EvReport err]] Stopped rest).
Proof.
  split.
  - intros ->. split; [reflexivity|]. split; [reflexivity|].
    intros r rest' ->.
    destruct (run_reads_first st r rest') as (evs & its & H).
    exists evs, its. simpl in *. rewrite H. reflexivity.
  - intros H. destruct err as [|msg]; [congruence|]. split; reflexivity.
Qed.

(** C5: when [Encode] fails on a frame, the iteration sends that error to
    [errCh] once and the goroutine returns; whatever the run did before,
    the frame is passed to [Encode] once, nothing follows the report, and
    the results of [stream.Read] that come after stay unread. *)
Theorem encode_error (st0 st : Loop Encoder) (pre rest : list ReadResult)
        (its : list (list Event)) (in_ : list Z) (enc' : Encoder) (err : error) :
  run st0 pre = mkRun its (Streaming st) [] ->
  speaking in_ = false ->
  Encode (opusEncoder st) in_ = (enc', inr err) ->
  let r := run st0 (pre ++ ReadOk in_ :: rest) in
  iterations r = its ++ [[EvRead; EvEncode in_; EvReport err]]
  /\ status r = Stopped
  /\ unread r = rest
  /\ count is_read_event (trace r)
     = (count is_read_event (concat its) + 1)%nat
  /\ count is_report_event (trace r)
     = (count is_report_event (concat its) + 1)%nat
  /\ count is_encode_event (trace r)
     = (count is_encode_event (concat its) + 1)%nat.
Proof.
  intros Hpre Hl He.
  assert (Hit : iteration st (ReadOk in_)
                = ([EvRead; EvEncode in_; EvReport err], Stopped)).
  { rewrite (iteration_loud _ _ Hl), (encode_and_send_err _ _ _ _ He).
    reflexivity. }
  cbv zeta. rewrite (run_app _ (ReadOk in_ :: rest) _ _ _ Hpre).
  rewrite (run_cons_stopped _ _ _ _ Hit). unfold trace, count.
  cbn [iterations status unread].
  rewrite concat_app, !filter_app, !length_app. simpl. repeat split.
Qed.

(** C9: the iteration of a frame skips the encoder exactly when every
    sample of the frame is -1, 0 or 1; a frame with a sample of magnitude
    2 or more is passed to [Encode], and the packet [Encode] returns is
    passed to [SendVoice]. *)
Theorem branch_by_samples (st : Loop Encoder) (in_ : list Z) :
  (Forall (fun value => value = -1 \/ value = 0 \/ value = 1) in_ <->
   iteration st (ReadOk in_)
   = (EvRead :: fst (skip_frame st), snd (skip_frame st)))
  /\ (Forall (fun value => value = -1 \/ value = 0 \/ value = 1) in_ ->
      count is_encode_event (fst (iteration st (ReadOk in_))) = 0%nat /\
      count is_send_event (fst (iteration st (ReadOk in_))) = 0%nat)
  /\ (Exists (fun value => 2 <= Z.abs value) in_ ->
      exists e, fst (iteration st (ReadOk in_)) = [EvRead; EvEncode in_; e] /\
                forall enc' opus,
                  Encode (opusEncoder st) in_ = (enc', inl opus) ->
                  e = EvSendVoice opus /\
                  snd (iteration st (ReadOk in_))
                  = Streaming (mkLoop true enc')).
Proof.
  assert (Hq : Forall (fun value => value = -1 \/ value = 0 \/ value = 1) in_
               <-> speaking in_ = true).
  { rewrite speaking_true_iff. split; apply Forall_impl; intros; lia. }
  assert (Hl : Exists (fun value => 2 <= Z.abs value) in_
               <-> speaking in_ = false).
  { rewrite speaking_false_iff. split; apply Exists_impl; intros; lia. }
  rewrite Hq, Hl. split; [split|split].
  - apply iteration_quiet.
  - intros H. destruct (speaking in_) eqn:Hs; [reflexivity|].
    rewrite (iteration_loud _ _ Hs) in H.
    destruct (encode_and_send_events st in_) as (e & He & _).
    rewrite He in H. unfold skip_frame in H.
    destruct (speaked st); simpl in H; discriminate H.
  - intros H. rewrite (iteration_quiet _ _ H). unfold skip_frame.
    destruct (speaked st); split; reflexivity.
  - intros H. rewrite (iteration_loud _ _ H). simpl.
    destruct (encode_and_send_events st in_) as (e & He & _).
    exists e. rewrite He. split; [reflexivity|].
    intros enc' opus Henc.
    rewrite (encode_and_send_ok _ _ _ _ Henc) in *. simpl in *.
    split; [congruence|reflexivity].
Qed.


Lemma trace_run_cons (st : Loop Encoder) (r : ReadResult)
      (rest : list ReadResult) :
  trace (run st (r :: rest))
  = fst (iteration st r)
    ++ match snd (iteration st r) with
       | Streaming st' => trace (run st' rest)
       | Stopped => []
       end.
Proof.
  unfold trace. simpl. destruct (iteration st r) as [evs [st'|]]; simpl.
  - reflexivity.
  - reflexivity.
Qed.

(** Which iterations announce, and what. *)
Lemma iteration_speaking_iff (st : Loop Encoder) (r : ReadResult) (b : bool) :
  In (EvSpeaking b) (fst (iteration st r)) <->
  b = false /\ speaked st = true /\
  exists in_, r = ReadOk in_ /\ speaking in_ = true.
Proof.
  split.
  - destruct r as [in_|err].
    + destruct (speaking in_) eqn:Hs.
      * rewrite (iteration_quiet _ _ Hs). unfold skip_frame.
        destruct (speaked st); simpl.
        -- intros [H|[H|[]]]; [discriminate|]. injection H as <-. eauto.
        -- intros [H|[]]. discriminate.
      * rewrite (iteration_loud _ _ Hs).
        destruct (encode_and_send_events st in_) as (e & He & Hne & _).
        rewrite He. simpl. intros [H|[H|[H|[]]]]; try discriminate.
        subst e. discriminate.
    + simpl. intros [H|[H|[]]]; discriminate.
  - intros (-> & Hsp & in_ & -> & Hs).
    rewrite (iteration_quiet _ _ Hs). unfold skip_frame. rewrite Hsp.
    simpl. auto.
Qed.

Lemma run_speaking_false (reads : list ReadResult) :
  forall (st : Loop Encoder) (b : bool),
    In (EvSpeaking b) (trace (run st reads)) -> b = false.
Proof.
  induction reads as [|r rest IH]; intros st b H.
  - destruct H.
  - rewrite trace_run_cons in H. apply in_app_or in H. destruct H as [H|H].
    + apply iteration_speaking_iff in H. tauto.
    + destruct (snd (iteration st r)) as [st'|]; [eauto|destruct H].
Qed.

Lemma count_app (p : Event -> bool) (l1 l2 : list Event) :
  count p (l1 ++ l2) = (count p l1 + count p l2)%nat.
Proof. unfold count. rewrite filter_app, length_app. reflexivity. Qed.

Lemma count_zero_iff (p : Event -> bool) (l : list Event) :
  count p l = 0%nat <-> forall e, In e l -> p e = false.
Proof.
  unfold count. induction l as [|x l IH]; simpl.
  - split; [intros _ e []|reflexivity].
  - destruct (p x) eqn:Hx; simpl.
    + split; [discriminate|]. intros H. specialize (H x (or_introl eq_refl)).
      congruence.
    + rewrite IH. split.
      * intros H e [<-|He]; auto.
      * intros H e He. apply H. right. exact He.
Qed.

Lemma run_never_quiet (reads : list ReadResult) :
  forall st : Loop Encoder,
    (forall in_, In (ReadOk in_) reads -> speaking in_ = false) ->
    count is_speaking_event (trace (run st reads)) = 0%nat.
Proof.
  induction reads as [|r rest IH]; intros st H; [reflexivity|].
  rewrite trace_run_cons, count_app.
  assert (H0 : count is_speaking_event (fst (iteration st r)) = 0%nat).
  { apply count_zero_iff. intros e He.
    destruct e as [|err|b|in_|opus]; try reflexivity.
    apply iteration_speaking_iff in He.
    destruct He as (_ & _ & in_ & -> & Hs).
    rewrite (H in_ (or_introl eq_refl)) in Hs. discriminate Hs. }
  rewrite H0. simpl.
  destruct (snd (iteration st r)) as [st'|]; [|reflexivity].
  apply IH. intros in_ Hin. apply H. right. exact Hin.
Qed.

(** C10: the goroutine never issues [Speaking(true)].  An iteration issues
    [Speaking(false)] exactly when its frame is all quiet while [speaked]
    is [true], and it clears [speaked] in doing so; a frame that is not
    all quiet leaves [speaked] set; [speaked] starts as [true], so a first
    frame that is all quiet is announced; and a run in which no frame is
    all quiet announces nothing. *)
Theorem only_Speaking_false (newEncoder : Encoder + error)
        (reads : list ReadResult) :
  (forall b, In (EvSpeaking b) (trace (goroutine newEncoder reads)) ->
             b = false)
  /\ (forall st r b,
        In (EvSpeaking b) (fst (iteration st r)) <->
        b = false /\ speaked st = true /\
        exists in_, r = ReadOk in_ /\ speaking in_ = true)
  /\ (forall st in_,
        speaking in_ = true -> speaked st = true ->
        iteration st (ReadOk in_)
        = ([EvRead; EvSpeaking false],
           Streaming (mkLoop false (opusEncoder st))))
  /\ (forall st in_ st',
        speaking in_ = false ->
        snd (iteration st (ReadOk in_)) = Streaming st' ->
        speaked st' = true)
  /\ (forall enc, goroutine (inl enc) reads = run (mkLoop true enc) reads)
  /\ (forall enc in_ rest,
        newEncoder = inl enc -> reads = ReadOk in_ :: rest ->
        speaking in_ = true ->
        exists its,
          iterations (goroutine newEncoder reads)
          = [EvRead; EvSpeaking false] :: its)
  /\ ((forall in_, In (ReadOk in_) reads -> speaking in_ = false) ->
      count is_speaking_event (trace (goroutine newEncoder reads)) = 0%nat).
Proof.
  assert (Hfirst : forall st in_,
             speaking in_ = true -> speaked st = true ->
             iteration st (ReadOk in_)
             = ([EvRead; EvSpeaking false],
                Streaming (mkLoop false (opusEncoder st)))).
  { intros st in_ Hs Hsp. rewrite (iteration_quiet _ _ Hs).
    unfold skip_frame. rewrite Hsp. reflexivity. }
  split; [|split; [|split; [|split; [|split; [|split]]]]].
  - intros b. destruct newEncoder as [enc|err]; simpl.
    + apply run_speaking_false.
    + intros [H|[]]. discriminate H.
  - apply iteration_speaking_iff.
  - exact Hfirst.
  - intros st in_ st' Hs. rewrite (iteration_loud _ _ Hs). simpl.
    unfold encode_and_send.
    destruct (Encode (opusEncoder st) in_) as [enc' [opus|err]];
      [|discriminate].
    intros H. injection H as <-. simpl. destruct (speaked st); reflexivity.
  - reflexivity.
  - intros enc in_ rest -> -> Hs. unfold goroutine.
    rewrite (run_cons_streaming _ _ _ _ _
               (Hfirst (mkLoop true enc) in_ Hs eq_refl)).
    simpl. eauto.
  - intros H. destruct newEncoder as [enc|err]; simpl.
    + apply run_never_quiet. exact H.
    + reflexivity.
Qed.

End CaptureProperties.

(** ** The theorems at concrete runs *)

Lemma Forall_repeat {A : Type} (P : A -> Prop) (x : A) (n : nat) :
  P x -> Forall P (repeat x n).
Proof.
  intros H. apply Forall_forall. intros y Hy. apply repeat_spec in Hy.
  subst. exact H.
Qed.

Lemma quiet_frame_Sound : Classify quiet_frame = Sound.
Proof. vm_compute. reflexivity. Qed.


Lemma loud_frame_speaking : speaking loud_frame = false.
Proof. vm_compute. reflexivity. Qed.

Lemma ten_sound_frames_witness :
  let r := goroutine nat (toy_Encode 100) (inl 0%nat)
                     (map ReadOk (repeat quiet_frame 10)) in
  count is_speaking_event (trace r) = 1%nat
  /\ count is_encode_event (trace r) = 0%nat
  /\ count is_send_event (trace r) = 0%nat.
Proof.
  destruct (ten_sound_frames nat (toy_Encode 100) 0%nat (repeat quiet_frame 10)
              eq_refl (Forall_repeat _ _ 10 quiet_frame_Sound))
    as (_ & H1 & H2 & H3 & _).
  cbv zeta. split; [exact H1|]. split; [exact H2|exact H3].
Defined.


Lemma read_error_witness :
  run nat (toy_Encode 100) (mkLoop true 0%nat)
      [ReadErr InputOverflowed; ReadOk quiet_frame]
  = mkRun [[EvRead; EvReport InputOverflowed]; [EvRead; EvSpeaking false]]
          (Streaming (mkLoop false 0%nat)) []
  /\
  run nat (toy_Encode 100) (mkLoop true 0%nat)
      [ReadErr (OtherError "device unavailable"); ReadOk quiet_frame]
  = mkRun [[EvRead; EvReport (OtherError "device unavailable")]] Stopped
          [ReadOk quiet_frame].
Proof.
  split.
  - destruct (read_error nat (toy_Encode 100) (mkLoop true 0%nat)
                InputOverflowed [ReadOk quiet_frame]) as [H _].
    destruct (H eq_refl) as (_ & H2 & _). exact H2.
  - destruct (read_error nat (toy_Encode 100) (mkLoop true 0%nat)
                (OtherError "device unavailable") [ReadOk quiet_frame])
      as [_ H].
    assert (Hne : OtherError "device unavailable" <> InputOverflowed)
      by discriminate.
    destruct (H Hne) as (_ & H2). exact H2.
Defined.

(** Five frames that all go to the encoder, which fails on the fourth. *)
Lemma encode_error_witness :
  let r := run nat (toy_Encode 4) (mkLoop true 0%nat)
               (map ReadOk (repeat loud_frame 3)
                ++ ReadOk loud_frame :: [ReadOk loud_frame]) in
  iterations r
  = repeat [EvRead; EvEncode loud_frame; EvSendVoice [Byte.x01]] 3
    ++ [[EvRead; EvEncode loud_frame; EvReport (OtherError "encode failed")]]
  /\ status r = Stopped
  /\ unread r = [ReadOk loud_frame]
  /\ count is_read_event (trace r) = 4%nat
  /\ count is_report_event (trace r) = 1%nat.
Proof.
  destruct (encode_error nat (toy_Encode 4) (mkLoop true 0%nat)
              (mkLoop true 3%nat) (map ReadOk (repeat loud_frame 3))
              [ReadOk loud_frame]
              (repeat [EvRead; EvEncode loud_frame; EvSendVoice [Byte.x01]] 3)
              loud_frame 4%nat (OtherError "encode failed")
              eq_refl loud_frame_speaking eq_refl)
    as (H1 & H2 & H3 & H4 & H5 & _).
  cbv zeta. split; [exact H1|]. split; [exact H2|]. split; [exact H3|].
  split; [exact H4|exact H5].
Defined.

Lemma branch_by_samples_witness :
  iteration nat (toy_Encode 100) (mkLoop true 0%nat) (ReadOk loud_frame)
  = ([EvRead; EvEncode loud_frame; EvSendVoice [Byte.x01]],
     Streaming (mkLoop true 1%nat))
  /\
  count is_encode_event
    (fst (iteration nat (toy_Encode 100) (mkLoop true 0%nat)
                    (ReadOk quiet_frame))) = 0%nat.
Proof.
  split.
  - destruct (branch_by_samples nat (toy_Encode 100) (mkLoop true 0%nat)
                loud_frame) as (_ & _ & H).
    assert (Hex : Exists (fun value => 2 <= Z.abs value) loud_frame).
    { apply Exists_exists. exists 1000. split; [|simpl; lia].
      change loud_frame with (1000 :: repeat 1000 1919). left. reflexivity. }
    destruct (H Hex) as (e & He & Hk).
    destruct (Hk 1%nat [Byte.x01] eq_refl) as (-> & Hs).
    destruct (iteration nat (toy_Encode 100) (mkLoop true 0%nat)
                        (ReadOk loud_frame)) as [evs s].
    simpl in He, Hs. subst. reflexivity.
  - destruct (branch_by_samples nat (toy_Encode 100) (mkLoop true 0%nat)
                quiet_frame) as (_ & H & _).
    apply H. apply Forall_repeat. right. left. reflexivity.
Defined.

Lemma only_Speaking_false_witness :
  count is_speaking_event
    (trace (goroutine nat (toy_Encode 100) (inl 0%nat)
                      [ReadOk loud_frame; ReadOk loud_frame])) = 0%nat
  /\
  exists its,
    iterations (goroutine nat (toy_Encode 100) (inl 0%nat)
                          [ReadOk quiet_frame; ReadOk loud_frame])
    = [EvRead; EvSpeaking false] :: its.
Proof.
  split.
  - destruct (only_Speaking_false nat (toy_Encode 100) (inl 0%nat)
                [ReadOk loud_frame; ReadOk loud_frame])
      as (_ & _ & _ & _ & _ & _ & H).
    apply H. intros in_ [Hin|[Hin|[]]]; injection Hin as <-;
      exact loud_frame_speaking.
  - destruct (only_Speaking_false nat (toy_Encode 100) (inl 0%nat)
                [ReadOk quiet_frame; ReadOk loud_frame])
      as (_ & _ & _ & _ & _ & H & _).
    apply (H 0%nat quiet_frame [ReadOk loud_frame] eq_refl eq_refl).
    apply speaking_repeat_quiet.
Defined.

(** * Further properties of the capture goroutine *)

Section CaptureRuns.

Variable Encoder : Type.
Variable Encode : Encoder -> list Z -> Encoder * (Opus + error).

Local Abbreviation iteration := (iteration Encoder Encode).
Local Abbreviation run := (run Encoder Encode).
Local Abbreviation goroutine := (goroutine Encoder Encode).
Local Abbreviation encode_all := (encode_all Encoder Encode).

Lemma iteration_cases (st : Loop Encoder) (r : ReadResult) :
  IterationCase Encode st r (fst (iteration st r)) (snd (iteration st r)).
Proof.
  destruct r as [in_|[|msg]].
  - destruct (speaking in_) eqn:Hs.
    + rewrite (iteration_quiet _ _ _ _ Hs). unfold skip_frame.
      destruct (speaked st) eqn:Hsp; simpl.
      * apply (CaseAnnounce Encode st _ in_); auto.
      * apply (CaseQuiet Encode st _ in_); auto.
    + rewrite (iteration_loud _ _ _ _ Hs).
      destruct (Encode (opusEncoder st) in_) as [enc' [opus|err]] eqn:He.
      * rewrite (encode_and_send_ok _ _ _ _ _ _ He).
        apply (CaseSent Encode st _ in_ enc' opus); auto.
      * rewrite (encode_and_send_err _ _ _ _ _ _ He).
        apply (CaseEncodeError Encode st _ in_ enc' err); auto.
  - apply CaseOverflow. reflexivity.
  - apply (CaseReadError Encode st _ msg). reflexivity.
Qed.

(** The run, one iteration further. *)
Lemma run_step (st : Loop Encoder) (r : ReadResult) (rest : list ReadResult) :
  run st (r :: rest)
  = match snd (iteration st r) with
    | Streaming st' =>
        mkRun (fst (iteration st r) :: iterations (run st' rest))
              (status (run st' rest)) (unread (run st' rest))
    | Stopped => mkRun [fst (iteration st r)] Stopped rest
    end.
Proof. simpl. destruct (iteration st r) as [evs [st'|]]; reflexivity. Qed.


Ltac by_iteration st r :=
  rewrite ?(run_step st r); unfold trace;
  let Hc := fresh "Hc" in
  pose proof (iteration_cases st r) as Hc;
  destruct (iteration st r) as [? ?]; simpl fst in *; simpl snd in *;
  destruct Hc; subst; cbn [iterations status unread concat app].




Lemma overflow_iteration_of_read (st : Loop Encoder) (r : ReadResult) :
  is_overflow_iteration (fst (iteration st r)) = is_overflow_read r.
Proof.
  pose proof (iteration_cases st r) as Hc.
  destruct (iteration st r) as [evs s]. simpl fst in *. simpl snd in *.
  destruct Hc; subst; reflexivity.
Qed.

Lemma overflow_read_continues (st : Loop Encoder) (r : ReadResult) :
  is_overflow_read r = true -> snd (iteration st r) = Streaming st.
Proof.
  destruct r as [in_|[|msg]]; simpl; try discriminate. reflexivity.
Qed.

(** X2: the calls of [stream.Read] that return [InputOverflowed] cost one
    iteration each, which reports the error, and change nothing else:
    with those iterations taken out, the run is the run on the other
    results alone, and it stands where that run stands. *)
Theorem overflow_transparent (st : Loop Encoder) (reads : list ReadResult) :
  let keep := fun r => negb (is_overflow_read r) in
  filter (fun evs => negb (is_overflow_iteration evs))
         (iterations (run st reads))
  = iterations (run st (filter keep reads))
  /\ status (run st reads) = status (run st (filter keep reads))
  /\ filter keep (unread (run st reads))
     = unread (run st (filter keep reads)).
Proof.
  cbv zeta. revert st. induction reads as [|r rest IH]; intros st.
  - simpl. auto.
  - destruct (is_overflow_read r) eqn:Hr.
    + rewrite run_step, (overflow_read_continues st r Hr).
      cbn [iterations status unread filter].
      rewrite overflow_iteration_of_read, Hr. simpl. apply IH.
    + cbn [filter]. rewrite Hr. cbn [negb]. rewrite !run_step.
      destruct (snd (iteration st r)) as [st'|];
        cbn [iterations status unread filter];
        rewrite overflow_iteration_of_read, Hr; cbn [negb].
      * destruct (IH st') as (I1 & I2 & I3). rewrite I1, I2, I3. auto.
      * auto.
Qed.

(** X3: every iteration has one of five shapes: a read alone; a read and
    [Speaking(false)]; a read, [Encode] and [SendVoice]; a read, [Encode]
    and a report; a read and a report.  So [SendVoice] is never called
    without the [Encode] just before it, [Encode] is called at most once
    more than [SendVoice], and as often while the loop is streaming. *)
Theorem encode_send_pairing (st : Loop Encoder) (reads : list ReadResult) :
  Forall IterationShape (iterations (run st reads))
  /\ (count is_send_event (trace (run st reads))
      <= count is_encode_event (trace (run st reads))
      <= S (count is_send_event (trace (run st reads))))%nat
  /\ (forall st', status (run st reads) = Streaming st' ->
                  count is_encode_event (trace (run st reads))
                  = count is_send_event (trace (run st reads))).
Proof.
  revert st. induction reads as [|r rest IH]; intros st.
  - simpl. repeat split; auto.
  - by_iteration st r;
      try (match goal with
           | |- context [run ?s rest] => destruct (IH s) as (I1 & I2 & I3)
           end);
      unfold trace, count in *; simpl;
      (split; [try (constructor; [constructor|assumption]);
               repeat constructor
              |split; [try lia|]]);
      intros; try discriminate;
      try (match goal with
           | H : status _ = Streaming _ |- _ => apply I3 in H; lia
           end).
Qed.

(** X4: the announcements never come twice in a row: between two
    [Speaking(false)] there is an [Encode], and before the first one too
    when the run starts with [speaked] cleared; so there are at most as
    many announcements as calls of [Encode], plus one when [speaked] is
    set at the start. *)
Theorem announcements_alternate (st : Loop Encoder) (reads : list ReadResult) :
  alternates (speaked st) (trace (run st reads)) = true
  /\ (count is_speaking_event (trace (run st reads))
      <= count is_encode_event (trace (run st reads))
         + (if speaked st then 1 else 0))%nat.
Proof.
  revert st. induction reads as [|r rest IH]; intros st.
  - simpl. split; [reflexivity|]. unfold count. simpl. lia.
  - by_iteration st r;
      try (match goal with
           | |- context [run ?s rest] => destruct (IH s) as (I1 & I2)
           end);
      unfold trace, count in *; simpl in *;
      repeat match goal with
             | H : speaked _ = _ |- _ => rewrite H in *
             end;
      simpl in *; split; auto; try lia;
      destruct (speaked st); auto; lia.
Qed.


(** X5: the frames passed to [Encode] are the frames the run has read
    that are not all quiet, each of them once and in the order they were
    read; no frame that is all quiet reaches the encoder. *)
Theorem encoder_input (st : Loop Encoder) (reads : list ReadResult) :
  encoded_frames (trace (run st reads))
  = filter (fun f => negb (speaking f))
           (frames_of (firstn (length (iterations (run st reads))) reads)).
Proof.
  revert st. induction reads as [|r rest IH]; intros st.
  - reflexivity.
  - by_iteration st r;
      try (match goal with
           | |- context [run ?s rest] => pose proof (IH s) as I1
           end);
      unfold trace in *; simpl;
      repeat match goal with
             | H : speaking _ = _ |- _ => rewrite H
             end;
      simpl; congruence.
Qed.

(** X6: while the loop is streaming, the packets passed to [SendVoice] are
    what one encoder, fed the frames that are not all quiet one after the
    other, returned for them, in that order; the encoder the loop holds is
    that encoder after those calls. *)
Theorem encoder_threaded (st st' : Loop Encoder) (reads : list ReadResult) :
  status (run st reads) = Streaming st' ->
  let frames := filter (fun f => negb (speaking f)) (frames_of reads) in
  encoded_frames (trace (run st reads)) = frames
  /\ encode_all (opusEncoder st) frames
     = Some (sent_packets (trace (run st reads)))
  /\ opusEncoder st' = encoder_after Encode (opusEncoder st) frames.
Proof.
  cbv zeta. revert st. induction reads as [|r rest IH]; intros st.
  - simpl. intros H. injection H as <-. auto.
  - by_iteration st r; intros H; try discriminate H;
      apply IH in H; destruct H as (I1 & I2 & I3);
      unfold trace in *; simpl in *;
      repeat match goal with
             | H : speaking _ = _ |- _ => rewrite H
             end;
      simpl;
      repeat match goal with
             | H : Encode _ _ = _ |- _ => rewrite H
             end;
      simpl; rewrite ?I2; repeat split; try congruence.
Qed.




End CaptureRuns.

(** * Further properties of [SendVoice] and [Speaking] *)





(** * Set-up and tear-down *)





(** * The flag [speaked] *)

Lemma last_cons_default {A : Type} (l : list A) (x d : A) :
  last (x :: l) d = last l x.
Proof.
  revert x d. induction l as [|y l IH]; intros x d; [reflexivity|].
  change (last (x :: y :: l) d) with (last (y :: l) d).
  rewrite (IH y d), (IH y x). reflexivity.
Qed.

(** X11: while the loop is streaming, [speaked] tells what the last frame
    read was: it is [true] when that frame was not all quiet and [false]
    when it was, and it is as it started when no frame was read; the
    results of [stream.Read] that are errors do not touch it. *)
Theorem speaked_tracks_last_frame (Encoder : Type)
        (Encode : Encoder -> list Z -> Encoder * (Opus + error))
        (st st' : Loop Encoder) (reads : list ReadResult) :
  status (run Encoder Encode st reads) = Streaming st' ->
  speaked st'
  = last (map (fun f => negb (speaking f)) (frames_of reads)) (speaked st).
Proof.
  revert st. induction reads as [|r rest IH]; intros st.
  - simpl. intros H. injection H as <-. reflexivity.
  - rewrite run_step.
    pose proof (iteration_cases Encoder Encode st r) as Hc.
    destruct (iteration Encoder Encode st r) as [evs s].
    simpl fst in *. simpl snd in *.
    destruct Hc; subst; cbn [status frames_of map]; intros H;
      try discriminate H; apply IH in H; rewrite H;
      rewrite ?last_cons_default; cbn [speaked];
      repeat match goal with
             | E : speaking _ = _ |- _ => rewrite E
             | E : speaked _ = _ |- _ => rewrite E
             end; reflexivity.
Qed.

Lemma speaked_tracks_last_frame_witness :
  speaked (mkLoop false 1%nat) = negb (speaking quiet_frame).
Proof.
  apply (speaked_tracks_last_frame nat (toy_Encode 100) (mkLoop true 0%nat)
           (mkLoop false 1%nat)
           [ReadOk loud_frame; ReadErr InputOverflowed; ReadOk quiet_frame]).
  reflexivity.
Defined.

(** * The theorems on runs, at concrete runs *)


Lemma encode_send_pairing_witness :
  count is_encode_event
        (trace (run nat (toy_Encode 100) (mkLoop true 0%nat)
                    [ReadOk quiet_frame; ReadOk loud_frame]))
  = count is_send_event
          (trace (run nat (toy_Encode 100) (mkLoop true 0%nat)
                      [ReadOk quiet_frame; ReadOk loud_frame])).
Proof.
  destruct (encode_send_pairing nat (toy_Encode 100) (mkLoop true 0%nat)
              [ReadOk quiet_frame; ReadOk loud_frame]) as (_ & _ & H).
  apply (H (mkLoop true 1%nat)). reflexivity.
Defined.

Lemma encoder_threaded_witness :
  let reads := [ReadOk loud_frame; ReadOk quiet_frame;
                ReadErr InputOverflowed; ReadOk loud_frame] in
  encoded_frames (trace (run nat (toy_Encode 100) (mkLoop true 0%nat) reads))
  = [loud_frame; loud_frame]
  /\ encode_all nat (toy_Encode 100) 0%nat [loud_frame; loud_frame]
     = Some (sent_packets
               (trace (run nat (toy_Encode 100) (mkLoop true 0%nat) reads))).
Proof.
  cbv zeta.
  destruct (encoder_threaded nat (toy_Encode 100) (mkLoop true 0%nat)
              (mkLoop true 2%nat)
              [ReadOk loud_frame; ReadOk quiet_frame;
               ReadErr InputOverflowed; ReadOk loud_frame] eq_refl)
    as (H1 & H2 & _).
  split; [exact H1|exact H2].
Defined.

